(** * The zcc-d FFI samples: [samples/build/source/c/ffi.c] and
      [samples/build/source/ffi.cc]

    A shallow embedding of the two foreign-function sample libraries and
    the properties their specification states about them.

    Both files are small C-linkage libraries working on raw memory.  The
    embedding keeps that memory explicit: a store of disjoint objects
    addressed by locations, every access checked against the bounds and
    the type of the object it goes through.  An access the C abstract
    machine leaves undefined (out of bounds, through a dangling or
    mistyped pointer, of an uninitialised byte) makes the computation
    fail with [None]; a result [Some _] therefore says, among other
    things, that no such access happened. *)

From Stdlib Require Import ZArith Strings.Byte String Lia.
From stdpp Require Import base option list gmap.

Local Open Scope Z_scope.

(** ** Machine integers *)

(** [int32_t] (and [int], which has the same width on every target of
    these samples) is a [Z] kept in the signed 32-bit range.  Addition
    is the machine's: the exact sum reduced modulo [2^32] into that
    range.  (ISO C leaves an overflowing signed addition undefined; the
    samples are read with the two's-complement result their targets
    compute, which is what this embedding writes out.) *)
Module Int32.
Definition modulus : Z := 2 ^ 32.
Definition min_signed : Z := - 2 ^ 31.
Definition max_signed : Z := 2 ^ 31 - 1.

Definition in_range (z : Z) : Prop := min_signed <= z <= max_signed.

(** Two's-complement reduction into the signed range. *)
Definition wrap (z : Z) : Z := (z + 2 ^ 31) mod modulus - 2 ^ 31.

Definition add (a b : Z) : Z := wrap (a + b).
End Int32.

(** The arithmetic sum of a list of integers, unbounded. *)
Definition sum_Z (xs : list Z) : Z := foldr Z.add 0 xs.

(** A [double] crosses the boundary as its IEEE-754 binary64 bit pattern;
    no entry point of either file does arithmetic on one. *)
Definition double : Type := Z.

(** ** Memory *)

Definition loc : Type := positive.
Bind Scope positive_scope with loc.

(** A byte of storage: [None] while uninitialised. *)
Definition cell : Type := option byte.

Definition NUL : byte := x00.

#[global] Instance byte_eq_decision : EqDecision byte := Byte.byte_eq_dec.

(** Computations over a store of objects of type [B]: they thread the
    store and fail on undefined behaviour. *)
Definition M (B A : Type) : Type := gmap loc B → option (A * gmap loc B).

#[global] Instance M_ret {B} : MRet (M B) := λ A (a : A) h, Some (a, h).

#[global] Instance M_bind {B} : MBind (M B) := λ A A' (f : A → M B A') (m : M B A) h,
  match m h with
  | Some (a, h') => f a h'
  | None => None
  end.

Section Store.
Context {B : Type}.

Definition undefined {A} : M B A := λ _, None.

Definition lift {A} (o : option A) : M B A := λ h,
  match o with
  | Some a => Some (a, h)
  | None => None
  end.

(** [malloc] / [new]: a location not in use, holding [b]. *)
Definition alloc (b : B) : M B loc := λ h,
  let l := fresh (dom h) in Some (l, <[l:=b]> h).

(** [free] / [delete] of a live object. *)
Definition dealloc (l : loc) : M B unit := λ h,
  match h !! l with
  | Some _ => Some (tt, delete l h)
  | None => None
  end.

Definition get_block (l : loc) : M B B := λ h,
  match h !! l with
  | Some b => Some (b, h)
  | None => None
  end.

(** Overwrites the contents of a live object. *)
Definition put_block (l : loc) (b : B) : M B unit := λ h,
  match h !! l with
  | Some _ => Some (tt, <[l:=b]> h)
  | None => None
  end.

(** [for (size_t i = start; i < start + count; i++) s = body i s;]
    with the loop-carried locals in [s].  [size_t] counters are [nat]s:
    in both loops of the samples [i] stays below a bound that is itself
    a [size_t], so [i++] never wraps. *)
Fixpoint for_loop {S} (count : nat) (i : nat) (body : nat → S → M B S) (s : S) : M B S :=
  match count with
  | O => mret s
  | Datatypes.S count' => s' ← body i s; for_loop count' (Datatypes.S i) body s'
  end.
End Store.

(** ** C strings *)

(** Element [i] of a character array; reading past its end or reading an
    uninitialised byte is undefined. *)
Definition cell_at (cells : list cell) (i : nat) : option byte :=
  match cells !! i with
  | Some (Some c) => Some c
  | _ => None
  end.

(** [cells[i] = c], within the array. *)
Definition cell_set (cells : list cell) (i : nat) (c : byte) : option (list cell) :=
  if decide (i < length cells)%nat then Some (<[i:=Some c]> cells) else None.

(** libc's [strlen]: the number of bytes before the first NUL. *)
Fixpoint strlen_cells (cells : list cell) : option nat :=
  match cells with
  | [] => None
  | None :: _ => None
  | Some c :: cells' =>
      if decide (c = NUL) then Some O else Datatypes.S <$> strlen_cells cells'
  end.

(** The string a character array holds: its bytes before the first NUL.
    [None] when the array is not a NUL-terminated string. *)
Fixpoint cstring (cells : list cell) : option (list byte) :=
  match cells with
  | [] => None
  | None :: _ => None
  | Some c :: cells' =>
      if decide (c = NUL) then Some [] else (c ::.) <$> cstring cells'
  end.

(** The array a string literal denotes: its bytes and a terminator. *)
Definition c_string (s : string) : list cell :=
  Some <$> (list_byte_of_string s ++ [NUL]).

(** The caller's test callback of the specification: it counts its
    invocations and records the arguments it received. *)
Definition recorder : Type := nat * list Z.

Definition recording_callback (status : Z) (w : recorder) : recorder :=
  (Datatypes.S (fst w), snd w ++ [status]).

(** ** [samples/build/source/c/ffi.c] *)

Module FfiC.

(** [typedef struct { int32_t id; char name[64]; double value; } FFIData;]
    A field is [None] until it is first written. *)
Record FFIData := mkFFIData {
  id : option Z;
  name : list cell;
  value : option double;
}.

(** The objects this library and its caller exchange. *)
Inductive block :=
| Chars (cells : list cell)     (* a [char] array *)
| Ints (xs : list Z)            (* an initialised [int32_t] array *)
| Data (d : FFIData).

(** A [char *] points at the first element of a character array: a
    whole object, or the [name] member of a record. *)
Inductive char_ptr :=
| CharsAt (l : loc)
| NameOf (l : loc).

(** The array [p] points into. *)
Definition chars_of (p : char_ptr) : M block (list cell) :=
  match p with
  | CharsAt l =>
      b ← get_block l;
      match b with Chars cells => mret cells | _ => undefined end
  | NameOf l =>
      b ← get_block l;
      match b with Data d => mret (name d) | _ => undefined end
  end.

Definition set_chars (p : char_ptr) (cells : list cell) : M block unit :=
  match p with
  | CharsAt l => put_block l (Chars cells)
  | NameOf l =>
      b ← get_block l;
      match b with
      | Data d => put_block l (Data (mkFFIData (id d) cells (value d)))
      | _ => undefined
      end
  end.

(** [p[i]] as an rvalue. *)
Definition load_char (p : char_ptr) (i : nat) : M block byte :=
  cells ← chars_of p; lift (cell_at cells i).

(** [p[i] = c]. *)
Definition store_char (p : char_ptr) (i : nat) (c : byte) : M block unit :=
  cells ← chars_of p; cells' ← lift (cell_set cells i c); set_chars p cells'.

(** [array[i]] as an rvalue. *)
Definition load_int (array : loc) (i : nat) : M block Z :=
  b ← get_block array;
  match b with Ints xs => lift (xs !! i) | _ => undefined end.

(** [data->id = v]. *)
Definition store_id (data : loc) (v : Z) : M block unit :=
  b ← get_block data;
  match b with
  | Data d => put_block data (Data (mkFFIData (Some v) (name d) (value d)))
  | _ => undefined
  end.

(** [data->value = v]. *)
Definition store_value (data : loc) (v : double) : M block unit :=
  b ← get_block data;
  match b with
  | Data d => put_block data (Data (mkFFIData (id d) (name d) (Some v)))
  | _ => undefined
  end.

(** [(FFIData * )malloc(sizeof(FFIData))]: no member initialised. *)
Definition malloc_FFIData : M block loc :=
  alloc (Data (mkFFIData None (replicate 64 None) None)).

(** [(char * )malloc(size)]. *)
Definition malloc_chars (size : nat) : M block char_ptr :=
  l ← alloc (Chars (replicate size None)); mret (CharsAt l).

(** libc's [strlen]. *)
Definition strlen (s : char_ptr) : M block nat :=
  cells ← chars_of s; lift (strlen_cells cells).

(** libc's [strncpy(dst, src, n)], from position [i] on with [n] bytes
    still to write (ISO C 7.24.2.4): bytes are copied up to and
    including the first NUL of [src], and once that NUL is copied the
    rest of the [n] bytes is filled with NULs. *)
Fixpoint strncpy_pad (dst : char_ptr) (n i : nat) : M block unit :=
  match n with
  | O => mret tt
  | S n' => store_char dst i NUL;; strncpy_pad dst n' (S i)
  end.

Fixpoint strncpy_from (dst src : char_ptr) (n i : nat) : M block unit :=
  match n with
  | O => mret tt
  | S n' =>
      c ← load_char src i;
      store_char dst i c;;
      if decide (c = NUL) then strncpy_pad dst n' (S i)
      else strncpy_from dst src n' (S i)
  end.

Definition strncpy (dst src : char_ptr) (n : nat) : M block unit :=
  strncpy_from dst src n 0.

(** [[
    extern FFIData *create_data(int32_t id, const char *name, double value) {
      FFIData *data = (FFIData * )malloc(sizeof(FFIData));
      data->id = id;
      strncpy(data->name, name, 63);
      data->name[63] = '\0';
      data->value = value;
      return data;
    }
    ]] *)
Definition create_data (id : Z) (name : char_ptr) (value : double) : M block loc :=
  data ← malloc_FFIData;
  store_id data id;;
  strncpy (NameOf data) name 63;;
  store_char (NameOf data) 63 NUL;;
  store_value data value;;
  mret data.

(** [typedef void ( *CallbackFunc)(int32_t status);]  The callback is
    the caller's code: it acts on the caller's world [W]. *)
Definition CallbackFunc (W : Type) : Type := Z → W → W.

(** [extern void register_callback(CallbackFunc callback) { callback(200); }] *)
Definition register_callback {W} (callback : CallbackFunc W) : W → W :=
  callback 200.

(** [[
    extern int32_t sum_array(int32_t *array, size_t length) {
      int32_t sum = 0;
      for (size_t i = 0; i < length; i++) {
        sum += array[i];
      }
      return sum;
    }
    ]] *)
Definition sum_array (array : loc) (length : nat) : M block Z :=
  for_loop length 0 (λ i sum, x ← load_int array i; mret (Int32.add sum x)) 0.

(** [[
    extern char *reverse_string(const char *input) {
      size_t len = strlen(input);
      char *result = (char * )malloc(len + 1);
      for (size_t i = 0; i < len; i++) {
        result[i] = input[len - 1 - i];
      }
      result[len] = '\0';
      return result;
    }
    ]]
    [len - 1 - i] does not wrap below [0], because [i < len]. *)
Definition reverse_string (input : char_ptr) : M block char_ptr :=
  len ← strlen input;
  result ← malloc_chars (len + 1);
  for_loop len 0
    (λ i _, c ← load_char input (len - 1 - i); store_char result i c) tt;;
  store_char result len NUL;;
  mret result.

(** What the caller reads through a [char *]: the string there. *)
Definition string_at (p : char_ptr) (h : gmap loc block) : option (list byte) :=
  match chars_of p h with
  | Some (cells, _) => cstring cells
  | None => None
  end.

(** A caller's store for the examples: two strings, one of them longer
    than the [name] member, the empty string and an array. *)
Definition long_name : string :=
  "0123456789abcdefghijklmnopqrstuvwxyzABCDEFGHIJKLMNOPQRSTUVWXYZ0123456789".

Definition example_store : gmap loc block :=
  {[ 1%positive := Chars (c_string "abc");
     2%positive := Ints [1; 2; 3];
     3%positive := Chars (c_string long_name);
     4%positive := Chars (c_string "");
     5%positive := Ints [2147483647; 1] ]}.

(** libc's [free]: it releases a live allocation and does nothing on
    the null pointer, which is [None] where a pointer may be null. *)
Definition free (p : option loc) : M block unit :=
  match p with
  | None => mret tt
  | Some l => dealloc l
  end.

(** [extern void free_data(FFIData *data) { free(data); }] *)
Definition free_data (data : option loc) : M block unit := free data.

(** A caller's array of 63 bytes, none of them NUL, with no terminator
    and nothing after it, and a shorter one. *)
Definition unterminated_store : gmap loc block :=
  {[ 1%positive :=
       Chars (Some <$> list_byte_of_string
                "0123456789abcdefghijklmnopqrstuvwxyzABCDEFGHIJKLMNOPQRSTUVWXYZ!");
     2%positive := Chars (Some <$> list_byte_of_string "abc") ]}.

End FfiC.

(** ** [samples/build/source/ffi.cc] *)

Module FfiCxx.

(** [struct FFIPoint { double x; double y; };] *)
Record FFIPoint := mkFFIPoint {
  x : double;
  y : double;
}.

(** [class ComplexObject] with its one private member [int value_]. *)
Record ComplexObject := mkComplexObject {
  value_ : Z;
}.

Module ComplexObjectImpl.
(** [ComplexObject() : value_(0) {}] *)
Definition ctor : ComplexObject := mkComplexObject 0.
(** [void setValue(int v) { value_ = v; }] *)
Definition setValue (this : ComplexObject) (v : Z) : ComplexObject :=
  mkComplexObject v.
(** [int getValue() const { return value_; }] *)
Definition getValue (this : ComplexObject) : Z := value_ this.
End ComplexObjectImpl.

Inductive block :=
| Chars (cells : list cell)     (* a [char] array *)
| Point (p : FFIPoint)
| Object (o : ComplexObject).

(** The array behind the string literal ["Hello from C++"]: static
    storage, outside the store of allocated objects. *)
Definition hello_literal : list cell := c_string "Hello from C++".

(** A [const char *] points at the literal or at the first element of
    a character array of the store. *)
Inductive char_ptr :=
| HelloLiteral
| CharsAt (l : loc).

Definition chars_of (p : char_ptr) : M block (list cell) :=
  match p with
  | HelloLiteral => mret hello_literal
  | CharsAt l =>
      b ← get_block l;
      match b with Chars cells => mret cells | _ => undefined end
  end.

(** What the caller reads through a [const char *]. *)
Definition string_at (p : char_ptr) (h : gmap loc block) : option (list byte) :=
  match chars_of p h with
  | Some (cells, _) => cstring cells
  | None => None
  end.

(** [const char *get_string() { return "Hello from C++"; }] *)
Definition get_string : M block char_ptr := mret HelloLiteral.

(** [std::string(const char * )]: the constructed string owns a copy of
    the characters, with their terminator, in storage of its own. *)
Definition string_ctor (s : char_ptr) : M block loc :=
  cells ← chars_of s;
  str ← lift (cstring cells);
  alloc (Chars (Some <$> (str ++ [NUL]))).

(** [std::string::~string()] releases that storage. *)
Definition string_dtor (this : loc) : M block unit := dealloc this.

(** [void process_string(const char *input) { std::string cpp_str(input); }]
    The local is destroyed where its scope ends. *)
Definition process_string (input : char_ptr) : M block unit :=
  cpp_str ← string_ctor input;
  string_dtor cpp_str.

(** [FFIPoint *create_point(double x, double y) {
      auto *point = new FFIPoint{x, y}; return point; }] *)
Definition create_point (x y : double) : M block loc :=
  point ← alloc (Point (mkFFIPoint x y));
  mret point.

(** [typedef void ( *CallbackFn)(int);] *)
Definition CallbackFn (W : Type) : Type := Z → W → W.

(** [void register_callback(CallbackFn callback) { callback(42); }] *)
Definition register_callback {W} (callback : CallbackFn W) : W → W :=
  callback 42.

(** [static_cast<ComplexObject *>(obj)], then a member access through
    it: defined only when [obj] is a live [ComplexObject]. *)
Definition as_ComplexObject (obj : loc) : M block ComplexObject :=
  b ← get_block obj;
  match b with Object o => mret o | _ => undefined end.

(** [void *create_complex_object() { return new ComplexObject(); }] *)
Definition create_complex_object : M block loc :=
  alloc (Object ComplexObjectImpl.ctor).

(** [void set_complex_value(void *obj, int value) {
      static_cast<ComplexObject *>(obj)->setValue(value); }] *)
Definition set_complex_value (obj : loc) (value : Z) : M block unit :=
  o ← as_ComplexObject obj;
  put_block obj (Object (ComplexObjectImpl.setValue o value)).

(** [int get_complex_value(void *obj) {
      return static_cast<ComplexObject *>(obj)->getValue(); }] *)
Definition get_complex_value (obj : loc) : M block Z :=
  o ← as_ComplexObject obj;
  mret (ComplexObjectImpl.getValue o).

(** A caller's sequence of [set_complex_value] calls on one handle. *)
Fixpoint set_complex_values (obj : loc) (values : list Z) : M block unit :=
  match values with
  | [] => mret tt
  | v :: values' => set_complex_value obj v;; set_complex_values obj values'
  end.

(** [void delete_point(FFIPoint *point) { delete point; }]
    [delete] through a [FFIPoint *] needs a live [FFIPoint] there, or
    the null pointer ([None]), on which it does nothing. *)
Definition delete_point (point : option loc) : M block unit :=
  match point with
  | None => mret tt
  | Some l =>
      b ← get_block l;
      match b with Point _ => dealloc l | _ => undefined end
  end.

(** [void delete_complex_object(void *obj) {
      delete static_cast<ComplexObject *>(obj); }] *)
Definition delete_complex_object (obj : option loc) : M block unit :=
  match obj with
  | None => mret tt
  | Some l =>
      b ← get_block l;
      match b with Object _ => dealloc l | _ => undefined end
  end.




End FfiCxx.

(** ** The callback contract *)

(** An entry point that takes a callback invokes it exactly once, with
    [status], before it returns: whatever the callback does to the
    caller's world, the effect of the entry point on that world is the
    effect of the one call [callback status]. *)
Definition invokes_once_with
    (status : Z) (entry : ∀ W : Type, (Z → W → W) → W → W) : Prop :=
  ∀ (W : Type) (callback : Z → W → W) (w : W),
    entry W callback w = callback status w.

(** * Proofs *)

(** ** The store monad *)

(** Exposes the store passing under the monad's operations. *)
Ltac unfold_M :=
  unfold mbind, M_bind, mret, M_ret, undefined, lift, get_block, put_block.

Section StoreFacts.
Context {B : Type}.
Implicit Types (h : gmap loc B) (l : loc) (b : B).

Lemma bind_eq {A A'} (m : M B A) (f : A → M B A') h a h' :
  m h = Some (a, h') → (m ≫= f) h = f a h'.
Proof. unfold mbind, M_bind. by intros ->. Qed.

Lemma alloc_eq b h : alloc b h = Some (fresh (dom h), <[fresh (dom h):=b]> h).
Proof. done. Qed.

Lemma fresh_unused h : h !! fresh (dom h) = None.
Proof. apply not_elem_of_dom, is_fresh. Qed.

Lemma dealloc_insert l b h :
  h !! l = None → dealloc l (<[l:=b]> h) = Some (tt, h).
Proof.
  intros Hl. unfold dealloc. rewrite lookup_insert_eq.
  by rewrite delete_insert_eq, delete_id.
Qed.
End StoreFacts.

(** ** Machine integers *)

Lemma wrap_in_range z : Int32.in_range (Int32.wrap z).
Proof.
  unfold Int32.in_range, Int32.wrap, Int32.min_signed, Int32.max_signed, Int32.modulus.
  pose proof (Z.mod_pos_bound (z + 2 ^ 31) (2 ^ 32)). lia.
Qed.

Lemma wrap_id z : Int32.in_range z → Int32.wrap z = z.
Proof.
  unfold Int32.in_range, Int32.wrap, Int32.min_signed, Int32.max_signed, Int32.modulus.
  intros Hz. rewrite Z.mod_small by lia. lia.
Qed.

(** Wrapping loses multiples of [2^32] only. *)
Lemma wrap_mod z : Int32.wrap z mod Int32.modulus = z mod Int32.modulus.
Proof.
  unfold Int32.wrap, Int32.modulus.
  rewrite Zminus_mod_idemp_l. f_equal. lia.
Qed.

Lemma wrap_add_l a b : Int32.wrap (Int32.wrap a + b) = Int32.wrap (a + b).
Proof.
  unfold Int32.wrap, Int32.modulus.
  replace ((a + 2 ^ 31) mod 2 ^ 32 - 2 ^ 31 + b + 2 ^ 31)
    with ((a + 2 ^ 31) mod 2 ^ 32 + b) by lia.
  rewrite Zplus_mod_idemp_l. do 2 f_equal. lia.
Qed.

(** Accumulating with wrapping additions is wrapping the exact sum. *)
Lemma foldl_add_wrap xs a :
  foldl Int32.add (Int32.wrap a) xs = Int32.wrap (a + sum_Z xs).
Proof.
  revert a. induction xs as [|x xs IH]; intros a; simpl.
  - by rewrite Z.add_0_r.
  - unfold Int32.add at 2. rewrite wrap_add_l, IH. f_equal. lia.
Qed.

(** ** C strings *)

(** An array holds the string [s] exactly when it starts with the bytes
    of [s], none of them NUL, followed by a NUL. *)
Lemma cstring_inv cells s :
  cstring cells = Some s →
  ∃ rest, cells = (Some <$> s) ++ Some NUL :: rest ∧ NUL ∉ s.
Proof.
  revert s. induction cells as [|[c|] cells IH]; intros s; simpl; try done.
  case_decide as Hc.
  - intros [= <-]. subst c. exists cells. split; [done | apply not_elem_of_nil].
  - destruct (cstring cells) as [s'|] eqn:Hs'; simpl; [|done].
    intros [= <-]. destruct (IH s' eq_refl) as (rest & -> & Hnul).
    exists rest. split; [done|]. rewrite not_elem_of_cons. auto.
Qed.

Lemma cstring_intro s rest :
  NUL ∉ s → cstring ((Some <$> s) ++ Some NUL :: rest) = Some s.
Proof.
  induction s as [|c s IH]; intros Hnul; [done|].
  apply not_elem_of_cons in Hnul as [Hc Hs].
  rewrite fmap_cons. cbn [app cstring].
  rewrite decide_False by done. by rewrite IH.
Qed.

Lemma strlen_cstring cells :
  strlen_cells cells = length <$> cstring cells.
Proof.
  induction cells as [|[c|] cells IH]; simpl; try done.
  case_decide; [done|]. rewrite IH. by destruct (cstring cells).
Qed.

Lemma cell_at_string s rest i c :
  s !! i = Some c → cell_at ((Some <$> s) ++ Some NUL :: rest) i = Some c.
Proof.
  intros Hi. unfold cell_at.
  rewrite lookup_app_l by (rewrite length_fmap; by eapply lookup_lt_Some).
  by rewrite list_lookup_fmap, Hi.
Qed.

Lemma cell_at_terminator s rest :
  cell_at ((Some <$> s) ++ Some NUL :: rest) (length s) = Some NUL.
Proof.
  unfold cell_at. rewrite lookup_app_r by (by rewrite length_fmap).
  by rewrite length_fmap, Nat.sub_diag.
Qed.

(** How a write at [i] shows in the prefix up to [i] and in a suffix
    past it. *)
Lemma take_S_insert {A} (l : list A) i x :
  (i < length l)%nat → take (S i) (<[i:=x]> l) = take i l ++ [x].
Proof.
  intros Hi. rewrite (take_S_r _ _ x) by (by apply list_lookup_insert_eq).
  by rewrite take_insert_ge by lia.
Qed.

Lemma drop_S_insert {A} (l : list A) i k x :
  drop (S i + k) (<[i:=x]> l) = drop (i + S k) l.
Proof. rewrite drop_insert_lt by lia. by rewrite Nat.add_succ_r. Qed.

(** ** [ffi.c] *)

Module FfiCProofs.
Import FfiC.
Implicit Types (h : gmap loc block) (l : loc) (p : char_ptr).

(** *** Accesses through [char *] *)

(** Reading through a pointer leaves the store as it is. *)
Lemma chars_of_store p h cells h' :
  chars_of p h = Some (cells, h') → h' = h.
Proof.
  destruct p as [l|l]; unfold chars_of; unfold_M;
    destruct (h !! l) as [[| |]|]; simpl; congruence.
Qed.

(** An allocation elsewhere does not change what a pointer reads. *)
Lemma chars_of_frame p h l b cells :
  h !! l = None →
  chars_of p h = Some (cells, h) →
  chars_of p (<[l:=b]> h) = Some (cells, <[l:=b]> h).
Proof.
  intros Hl.
  destruct p as [l'|l']; unfold chars_of; unfold_M;
    destruct (h !! l') as [b'|] eqn:Hl'; try done;
    (rewrite lookup_insert_ne by congruence); rewrite Hl';
    destruct b'; simpl; congruence.
Qed.

Lemma load_char_frame p h l b cells i c :
  h !! l = None →
  chars_of p h = Some (cells, h) →
  cell_at cells i = Some c →
  load_char p i (<[l:=b]> h) = Some (c, <[l:=b]> h).
Proof.
  intros Hl Hp Hc. unfold load_char.
  rewrite (bind_eq _ _ _ _ _ (chars_of_frame _ _ _ b _ Hl Hp)).
  unfold lift. by rewrite Hc.
Qed.

Lemma store_char_chars l cells i c h :
  (i < length cells)%nat →
  store_char (CharsAt l) i c (<[l:=Chars cells]> h)
  = Some (tt, <[l:=Chars (<[i:=Some c]> cells)]> h).
Proof.
  intros Hi. unfold store_char, chars_of, set_chars, cell_set. unfold_M.
  rewrite lookup_insert_eq, decide_True by done.
  by rewrite lookup_insert_eq, insert_insert_eq.
Qed.

Lemma store_char_name l d i c h :
  (i < length (name d))%nat →
  store_char (NameOf l) i c (<[l:=Data d]> h)
  = Some (tt, <[l:=Data (mkFFIData (id d) (<[i:=Some c]> (name d)) (value d))]> h).
Proof.
  intros Hi. unfold store_char, chars_of, set_chars, cell_set. unfold_M.
  rewrite lookup_insert_eq, decide_True by done.
  by rewrite !lookup_insert_eq, insert_insert_eq.
Qed.

(** *** [reverse_string] *)

(** The copy loop of [reverse_string], started at [i] with [k] rounds
    to go: it overwrites [result[i .. i+k)] with that stretch of the
    reversed input and touches nothing else. *)
Lemma reverse_loop_eq input h l s rest k i rcells :
  h !! l = None →
  chars_of input h = Some ((Some <$> s) ++ Some NUL :: rest, h) →
  (i + k ≤ length s)%nat →
  (i + k ≤ length rcells)%nat →
  for_loop k i
    (λ i _, c ← load_char input (length s - 1 - i); store_char (CharsAt l) i c)
    tt (<[l:=Chars rcells]> h)
  = Some (tt, <[l:=Chars (take i rcells
                          ++ (Some <$> take k (drop i (reverse s)))
                          ++ drop (i + k) rcells)]> h).
Proof.
  intros Hl Hin. revert i rcells.
  induction k as [|k IH]; intros i rcells Hs Hr.
  - cbn [for_loop]. unfold_M. simpl.
    by rewrite Nat.add_0_r, take_drop.
  - assert (is_Some (reverse s !! i)) as [c Hc]
      by (apply lookup_lt_is_Some; rewrite length_reverse; lia).
    assert (s !! (length s - 1 - i)%nat = Some c) as Hc'.
    { rewrite reverse_lookup in Hc by lia. rewrite <- Hc. f_equal. lia. }
    cbn [for_loop].
    erewrite bind_eq; cycle 1.
    { erewrite bind_eq; cycle 1.
      - eapply load_char_frame; [done..|]. by apply cell_at_string.
      - apply store_char_chars. lia. }
    rewrite IH by (rewrite ?length_insert; lia).
    rewrite (drop_S _ _ _ Hc), firstn_cons, fmap_cons.
    rewrite take_S_insert, drop_S_insert by lia.
    by rewrite <- app_assoc.
Qed.

Lemma string_at_inv p h s :
  string_at p h = Some s →
  ∃ rest, chars_of p h = Some ((Some <$> s) ++ Some NUL :: rest, h) ∧ NUL ∉ s.
Proof.
  unfold string_at. destruct (chars_of p h) as [[cells h']|] eqn:Hp; [|done].
  intros (rest & -> & Hnul)%cstring_inv.
  pose proof (chars_of_store _ _ _ _ Hp) as ->. eauto.
Qed.

Lemma strlen_eq p h s rest :
  chars_of p h = Some ((Some <$> s) ++ Some NUL :: rest, h) → NUL ∉ s →
  strlen p h = Some (length s, h).
Proof.
  intros Hp Hnul. unfold strlen. rewrite (bind_eq _ _ _ _ _ Hp).
  unfold lift. by rewrite strlen_cstring, cstring_intro.
Qed.

Lemma string_at_chars l s h :
  NUL ∉ s →
  string_at (CharsAt l) (<[l:=Chars ((Some <$> s) ++ [Some NUL])]> h) = Some s.
Proof.
  intros Hnul. unfold string_at, chars_of. unfold_M.
  rewrite lookup_insert_eq. by apply cstring_intro.
Qed.

Lemma reverse_string_eq input h s :
  string_at input h = Some s →
  reverse_string input h
  = Some (CharsAt (fresh (dom h)),
          <[fresh (dom h):=Chars ((Some <$> reverse s) ++ [Some NUL])]> h).
Proof.
  intros (rest & Hin & Hnul)%string_at_inv.
  pose proof (fresh_unused h) as Hl.
  unfold reverse_string.
  rewrite (bind_eq _ _ _ _ _ (strlen_eq _ _ _ _ Hin Hnul)).
  unfold malloc_chars.
  rewrite (bind_eq _ _ _ _ _ (bind_eq _ _ _ _ _ (alloc_eq _ _))).
  unfold mret at 1, M_ret at 1.
  erewrite bind_eq; cycle 1.
  { apply (reverse_loop_eq _ _ _ _ _ _ _ _ Hl Hin);
      rewrite ?length_replicate; lia. }
  rewrite Nat.add_0_l, drop_0, drop_replicate_add, take_0, app_nil_l.
  rewrite (take_ge (reverse s)) by (by rewrite length_reverse).
  change (replicate 1 None) with [@None byte].
  erewrite bind_eq; cycle 1.
  { apply store_char_chars.
    rewrite length_app, length_fmap, length_reverse. simpl. lia. }
  rewrite insert_app_r_alt by (by rewrite length_fmap, length_reverse).
  by rewrite length_fmap, length_reverse, Nat.sub_diag.
Qed.

(** *** [create_data] *)

Lemma store_id_insert l d v h :
  store_id l v (<[l:=Data d]> h)
  = Some (tt, <[l:=Data (mkFFIData (Some v) (name d) (value d))]> h).
Proof.
  unfold store_id. unfold_M. by rewrite !lookup_insert_eq, insert_insert_eq.
Qed.

Lemma store_value_insert l d v h :
  store_value l v (<[l:=Data d]> h)
  = Some (tt, <[l:=Data (mkFFIData (id d) (name d) (Some v))]> h).
Proof.
  unfold store_value. unfold_M. by rewrite !lookup_insert_eq, insert_insert_eq.
Qed.

(** The NUL padding of [strncpy]: it fills [name[i .. i+n)]. *)
Lemma strncpy_pad_eq l h n i d :
  (i + n ≤ length (name d))%nat →
  strncpy_pad (NameOf l) n i (<[l:=Data d]> h)
  = Some (tt, <[l:=Data (mkFFIData (id d)
                           (take i (name d) ++ replicate n (Some NUL)
                            ++ drop (i + n) (name d))
                           (value d))]> h).
Proof.
  revert i d. induction n as [|n IH]; intros i d Hlen.
  - cbn [strncpy_pad replicate app]. unfold_M.
    rewrite Nat.add_0_r, take_drop. by destruct d.
  - cbn [strncpy_pad].
    erewrite bind_eq by (apply store_char_name; lia).
    rewrite IH by (cbn [name]; rewrite length_insert; lia).
    cbn [id name value replicate].
    rewrite take_S_insert, drop_S_insert by lia.
    by rewrite <- app_assoc.
Qed.

(** [strncpy] into the [name] member from position [i] on, with [n]
    bytes to go and the source holding the string [s]: the bytes of
    [s] that fit, then NULs, are written into [name[i .. i+n)]. *)
Lemma strncpy_from_eq src h l s rest n i d :
  h !! l = None →
  chars_of src h = Some ((Some <$> s) ++ Some NUL :: rest, h) →
  NUL ∉ s →
  (i ≤ length s)%nat →
  (i + n ≤ length (name d))%nat →
  strncpy_from (NameOf l) src n i (<[l:=Data d]> h)
  = Some (tt, <[l:=Data (mkFFIData (id d)
                           (take i (name d)
                            ++ (Some <$> take n (drop i s))
                            ++ replicate (n - (length s - i)) (Some NUL)
                            ++ drop (i + n) (name d))
                           (value d))]> h).
Proof.
  intros Hl Hsrc Hnul. revert i d.
  induction n as [|n IH]; intros i d Hi Hlen.
  - cbn [strncpy_from]. unfold_M.
    rewrite take_0, fmap_nil, Nat.sub_0_l, Nat.add_0_r. cbn [replicate app].
    rewrite take_drop. by destruct d.
  - cbn [strncpy_from].
    destruct (decide (i < length s)%nat) as [Hlt|Hge].
    + destruct (lookup_lt_is_Some_2 s i Hlt) as [c Hc].
      assert (c ≠ NUL) as Hne.
      { intros ->. apply Hnul. by eapply list_elem_of_lookup_2. }
      erewrite bind_eq
        by (eapply load_char_frame; [done..|]; by apply cell_at_string).
      erewrite bind_eq by (apply store_char_name; lia).
      rewrite decide_False by done.
      rewrite IH by (cbn [name]; rewrite ?length_insert; lia).
      cbn [id name value].
      rewrite (drop_S _ _ _ Hc), firstn_cons, fmap_cons.
      rewrite take_S_insert, drop_S_insert by lia.
      rewrite <- app_assoc.
      by replace (S n - (length s - i))%nat with (n - (length s - S i))%nat by lia.
    + assert (i = length s) as -> by lia.
      erewrite bind_eq
        by (eapply load_char_frame; [done..|]; apply cell_at_terminator).
      erewrite bind_eq by (apply store_char_name; lia).
      rewrite decide_True by done.
      rewrite strncpy_pad_eq by (cbn [name]; rewrite length_insert; lia).
      cbn [id name value].
      rewrite take_S_insert, drop_S_insert by lia.
      rewrite drop_all, take_nil, fmap_nil, app_nil_l, Nat.sub_diag, Nat.sub_0_r.
      by rewrite <- app_assoc.
Qed.

(** The contents [create_data] leaves in the [name] member for the
    input string [s]. *)
Lemma create_data_eq identifier nm v h s :
  string_at nm h = Some s →
  create_data identifier nm v h
  = Some (fresh (dom h),
          <[fresh (dom h):=Data (mkFFIData (Some identifier)
             ((Some <$> take 63 s) ++ replicate (64 - length (take 63 s)) (Some NUL))
             (Some v))]> h).
Proof.
  intros (rest & Hnm & Hnul)%string_at_inv.
  pose proof (fresh_unused h) as Hl.
  unfold create_data, malloc_FFIData.
  rewrite (bind_eq _ _ _ _ _ (alloc_eq _ _)).
  erewrite bind_eq by apply store_id_insert.
  cbn [name value]. unfold strncpy.
  erewrite bind_eq; cycle 1.
  { apply (strncpy_from_eq _ _ _ _ _ _ _ _ Hl Hnm Hnul); [lia|].
    cbn [name]. rewrite length_replicate. lia. }
  cbn [id name value].
  rewrite take_0, app_nil_l, drop_0, Nat.sub_0_r.
  change (drop (0 + 63) (replicate 64 None)) with [@None byte].
  erewrite bind_eq; cycle 1.
  { apply store_char_name. cbn [name].
    rewrite !length_app, length_fmap, length_take, length_replicate.
    cbn [length]. lia. }
  cbn [id name value].
  erewrite bind_eq by apply store_value_insert.
  cbn [id name]. unfold mret, M_ret.
  do 4 f_equal.
  rewrite insert_app_r_alt by (rewrite length_fmap, length_take; lia).
  rewrite insert_app_r_alt
    by (rewrite length_fmap, length_take, length_replicate; lia).
  rewrite length_fmap, length_take, length_replicate.
  replace (63 - 63 `min` length s - (63 - length s))%nat with 0%nat by lia.
  replace (64 - 63 `min` length s)%nat with (63 - length s + 1)%nat by lia.
  by rewrite replicate_add.
Qed.

(** *** [sum_array] *)

Lemma load_int_eq array h xs i x :
  h !! array = Some (Ints xs) → xs !! i = Some x →
  load_int array i h = Some (x, h).
Proof. intros Harr Hx. unfold load_int. unfold_M. by rewrite Harr, Hx. Qed.

(** The loop of [sum_array], started at [i] with [k] rounds to go. *)
Lemma sum_loop_eq array h xs k i acc :
  h !! array = Some (Ints xs) →
  (i + k ≤ length xs)%nat →
  for_loop k i (λ i sum, x ← load_int array i; mret (Int32.add sum x)) acc h
  = Some (foldl Int32.add acc (take k (drop i xs)), h).
Proof.
  intros Harr. revert i acc. induction k as [|k IH]; intros i acc Hlen.
  - done.
  - destruct (lookup_lt_is_Some_2 xs i) as [x Hx]; [lia|].
    cbn [for_loop].
    erewrite bind_eq by (erewrite bind_eq by (by eapply load_int_eq); done).
    rewrite IH by lia. by rewrite (drop_S _ _ _ Hx).
Qed.

Lemma sum_array_eq array n h xs :
  h !! array = Some (Ints xs) →
  (n ≤ length xs)%nat →
  sum_array array n h = Some (Int32.wrap (sum_Z (take n xs)), h).
Proof.
  intros Harr Hn. unfold sum_array.
  rewrite (sum_loop_eq _ _ _ _ _ _ Harr) by lia.
  rewrite drop_0. change 0 with (Int32.wrap 0) at 1.
  by rewrite foldl_add_wrap.
Qed.

(** An empty range is summed without a single read. *)
Lemma sum_array_0 array h : sum_array array 0 h = Some (0, h).
Proof. done. Qed.

(** *** The model checks bounds *)

(** A write past the end of the array a pointer points into is
    undefined: the model refuses it instead of growing the array or
    dropping the write. *)
Lemma store_char_out_of_bounds p h cells i c :
  chars_of p h = Some (cells, h) →
  (length cells ≤ i)%nat →
  store_char p i c h = None.
Proof.
  intros Hp Hi. unfold store_char. rewrite (bind_eq _ _ _ _ _ Hp).
  unfold cell_set. rewrite decide_False by lia. done.
Qed.

Lemma string_at_name l s pad identifier v h :
  NUL ∉ s →
  string_at (NameOf l)
    (<[l:=Data (mkFFIData identifier ((Some <$> s) ++ Some NUL :: pad) v)]> h)
  = Some s.
Proof.
  intros Hnul. unfold string_at, chars_of. unfold_M.
  rewrite lookup_insert_eq. by apply cstring_intro.
Qed.

Lemma not_elem_of_take {A} (x : A) (l : list A) n : x ∉ l → x ∉ take n l.
Proof. intros Hx Hin. apply Hx. by eapply subseteq_take. Qed.

(** *** Sanity checks on concrete inputs *)

Example create_data_abc :
  ∃ h, create_data 7 (CharsAt 1) 99 example_store = Some (6%positive, h)
       ∧ string_at (NameOf 6) h = Some (list_byte_of_string "abc").
Proof. eexists. split; vm_compute; reflexivity. Qed.

Example reverse_string_abc :
  ∃ h, reverse_string (CharsAt 1) example_store = Some (CharsAt 6, h)
       ∧ string_at (CharsAt 6) h = Some (list_byte_of_string "cba").
Proof. eexists. split; vm_compute; reflexivity. Qed.

Example reverse_string_empty :
  ∃ h, reverse_string (CharsAt 4) example_store = Some (CharsAt 6, h)
       ∧ h !! 6%positive = Some (Chars [Some NUL]).
Proof. eexists. split; vm_compute; reflexivity. Qed.

Example sum_array_123 : sum_array 2 3 example_store = Some (6, example_store).
Proof. vm_compute. reflexivity. Qed.

(** [INT32_MAX + 1] wraps to [INT32_MIN]. *)
Example sum_array_overflow :
  sum_array 5 2 example_store = Some (-2147483648, example_store).
Proof. vm_compute. reflexivity. Qed.

(** Reading more elements than the array has is undefined. *)
Example sum_array_past_end : sum_array 2 4 example_store = None.
Proof. vm_compute. reflexivity. Qed.

(** *** The claims about [ffi.c] *)

(** C2. For every identifier, every NUL-terminated input string [s]
    and every value, [create_data] returns a new record whose [id] is
    the identifier, whose [value] is the value, and whose [name] holds
    the first [min (length s) 63] bytes of [s] followed by a NUL (and
    by NULs up to the 64th byte); the caller reads that prefix back as
    the record's name. *)
Theorem create_data_fields identifier nm v h s :
  string_at nm h = Some s →
  ∃ data d,
    create_data identifier nm v h = Some (data, <[data:=Data d]> h)
    ∧ h !! data = None
    ∧ id d = Some identifier
    ∧ value d = Some v
    ∧ name d = (Some <$> take (length s `min` 63) s)
               ++ replicate (64 - length s `min` 63) (Some NUL)
    ∧ string_at (NameOf data) (<[data:=Data d]> h)
      = Some (take (length s `min` 63) s).
Proof.
  intros Hs. pose proof (create_data_eq identifier nm v h s Hs) as Heq.
  apply string_at_inv in Hs as (rest & _ & Hnul).
  assert (take (length s `min` 63) s = take 63 s) as Htake.
  { destruct (decide (length s ≤ 63)%nat).
    - rewrite Nat.min_l by done. by rewrite !take_ge by lia.
    - f_equal. lia. }
  assert (length (take 63 s) = (length s `min` 63)%nat) as Hlen
    by (rewrite length_take; lia).
  eexists _, _. split; [exact Heq|].
  split; [apply fresh_unused|].
  cbn [id name value]. rewrite Htake, Hlen.
  repeat split; try done.
  replace (64 - length s `min` 63)%nat with (S (63 - length s `min` 63)) by lia.
  apply string_at_name. by apply not_elem_of_take.
Qed.

Lemma create_data_fields_witness :
  string_at (CharsAt 1) example_store = Some (list_byte_of_string "abc")
  ∧ ∃ data d,
      create_data 7 (CharsAt 1) 99 example_store
      = Some (data, <[data:=Data d]> example_store)
      ∧ example_store !! data = None
      ∧ id d = Some 7
      ∧ value d = Some 99
      ∧ name d = (Some <$> list_byte_of_string "abc") ++ replicate 61 (Some NUL)
      ∧ string_at (NameOf data) (<[data:=Data d]> example_store)
        = Some (list_byte_of_string "abc").
Proof.
  split; [vm_compute; reflexivity|].
  apply (create_data_fields 7 (CharsAt 1) 99 example_store
           (list_byte_of_string "abc")).
  vm_compute; reflexivity.
Defined.

(** C3. For every NUL-terminated input string [s], [create_data]
    runs without a write outside the arrays it goes through: it
    succeeds, where a write at offset 64 or beyond of the [name] member
    would have made it fail, and the store it leaves is the caller's
    store with the new record added.  The [name] member keeps its 64
    bytes and its last byte is NUL, whatever the length of [s]; and
    when [s] is longer than 63 bytes, the stored name is exactly 63
    bytes long. *)
Theorem create_data_truncates identifier nm v h s :
  string_at nm h = Some s →
  ∃ data d,
    create_data identifier nm v h = Some (data, <[data:=Data d]> h)
    ∧ h !! data = None
    ∧ length (name d) = 64%nat
    ∧ (∀ i c, (64 ≤ i)%nat →
              store_char (NameOf data) i c (<[data:=Data d]> h) = None)
    ∧ name d !! 63%nat = Some (Some NUL)
    ∧ ((63 < length s)%nat →
       strlen (NameOf data) (<[data:=Data d]> h)
       = Some (63%nat, <[data:=Data d]> h)).
Proof.
  intros Hs. pose proof (create_data_eq identifier nm v h s Hs) as Heq.
  apply string_at_inv in Hs as (rest & _ & Hnul).
  assert (length (take 63 s) ≤ 63)%nat as Hle by (rewrite length_take; lia).
  eexists _, _. split; [exact Heq|].
  split; [apply fresh_unused|].
  cbn [name].
  split; [rewrite length_app, length_fmap, length_replicate; lia|].
  split; [|split].
  - intros i c Hi. eapply store_char_out_of_bounds.
    + unfold chars_of. unfold_M. by rewrite lookup_insert_eq.
    + cbn [name]. rewrite length_app, length_fmap, length_replicate. lia.
  - rewrite lookup_app_r by (by rewrite length_fmap).
    apply lookup_replicate_2. rewrite length_fmap. lia.
  - intros Hlong.
    assert (length (take 63 s) = 63%nat) as Hlen by (rewrite length_take; lia).
    rewrite Hlen. change (64 - 63)%nat with 1%nat. cbn [replicate].
    pose proof (strlen_eq (NameOf (fresh (dom h)))
                  (<[fresh (dom h):=Data (mkFFIData (Some identifier)
                       ((Some <$> take 63 s) ++ [Some NUL]) (Some v))]> h)
                  (take 63 s) []) as Hstrlen.
    rewrite Hlen in Hstrlen. apply Hstrlen.
    + unfold chars_of. unfold_M. by rewrite lookup_insert_eq.
    + by apply not_elem_of_take.
Qed.

Lemma create_data_truncates_witness :
  string_at (CharsAt 3) example_store = Some (list_byte_of_string long_name)
  ∧ (63 < length (list_byte_of_string long_name))%nat
  ∧ ∃ data d,
      create_data 7 (CharsAt 3) 99 example_store
      = Some (data, <[data:=Data d]> example_store)
      ∧ example_store !! data = None
      ∧ length (name d) = 64%nat
      ∧ (∀ i c, (64 ≤ i)%nat →
                store_char (NameOf data) i c (<[data:=Data d]> example_store)
                = None)
      ∧ name d !! 63%nat = Some (Some NUL)
      ∧ ((63 < length (list_byte_of_string long_name))%nat →
         strlen (NameOf data) (<[data:=Data d]> example_store)
         = Some (63%nat, <[data:=Data d]> example_store)).
Proof.
  split; [vm_compute; reflexivity|].
  split; [vm_compute; lia|].
  apply (create_data_truncates 7 (CharsAt 3) 99 example_store
           (list_byte_of_string long_name)).
  vm_compute; reflexivity.
Defined.

(** C4. When the buffer holds at least [n] elements, [sum_array]
    returns the sum of the first [n] of them reduced into the signed
    32-bit range modulo [2^32], and reports nothing else: it succeeds
    and leaves the store as it was.  The result is the exact sum when
    that fits in 32 bits; with [n = 0] it is [0]; on the buffer
    [1, 2, 3] with [n = 3] it is [6]. *)
Theorem sum_array_wraps array n h xs :
  h !! array = Some (Ints xs) →
  (n ≤ length xs)%nat →
  ∃ r,
    sum_array array n h = Some (r, h)
    ∧ r = Int32.wrap (sum_Z (take n xs))
    ∧ Int32.in_range r
    ∧ r mod 2 ^ 32 = sum_Z (take n xs) mod 2 ^ 32
    ∧ (Int32.in_range (sum_Z (take n xs)) → r = sum_Z (take n xs))
    ∧ (n = 0%nat → r = 0)
    ∧ (xs = [1; 2; 3] → n = 3%nat → r = 6).
Proof.
  intros Harr Hn. eexists. split; [by apply sum_array_eq|].
  split; [done|]. split; [apply wrap_in_range|]. split; [apply wrap_mod|].
  split; [apply wrap_id|]. split.
  - by intros ->.
  - by intros -> ->.
Qed.

Lemma sum_array_wraps_witness :
  example_store !! 2%positive = Some (Ints [1; 2; 3])
  ∧ (3 ≤ length [1; 2; 3])%nat
  ∧ ∃ r,
      sum_array 2 3 example_store = Some (r, example_store)
      ∧ r = Int32.wrap (sum_Z (take 3 [1; 2; 3]))
      ∧ Int32.in_range r
      ∧ r mod 2 ^ 32 = sum_Z (take 3 [1; 2; 3]) mod 2 ^ 32
      ∧ (Int32.in_range (sum_Z (take 3 [1; 2; 3]))
         → r = sum_Z (take 3 [1; 2; 3]))
      ∧ (3%nat = 0%nat → r = 0)
      ∧ ([1; 2; 3] = [1; 2; 3] → 3%nat = 3%nat → r = 6).
Proof.
  split; [vm_compute; reflexivity|].
  split; [simpl; lia|].
  apply (sum_array_wraps 2 3 example_store [1; 2; 3]).
  - vm_compute; reflexivity.
  - simpl; lia.
Defined.

(** C5. For every NUL-terminated input string [s], [reverse_string]
    returns a pointer to a newly allocated array, of [length s + 1]
    bytes, holding the bytes of [s] in reverse order followed by a
    NUL; the string read there is the reverse of [s] and as long as
    [s]; for the empty string the array is the terminator alone. *)
Theorem reverse_string_reverses input h s :
  string_at input h = Some s →
  ∃ l h',
    reverse_string input h = Some (CharsAt l, h')
    ∧ h !! l = None
    ∧ h' = <[l:=Chars ((Some <$> reverse s) ++ [Some NUL])]> h
    ∧ string_at (CharsAt l) h' = Some (reverse s)
    ∧ length (reverse s) = length s
    ∧ (s = [] → h' !! l = Some (Chars [Some NUL])).
Proof.
  intros Hs. pose proof (reverse_string_eq input h s Hs) as Heq.
  apply string_at_inv in Hs as (rest & _ & Hnul).
  eexists _, _. split; [exact Heq|].
  split; [apply fresh_unused|]. split; [done|].
  split; [|split].
  - apply string_at_chars. by rewrite elem_of_reverse.
  - apply length_reverse.
  - intros ->. by rewrite lookup_insert_eq.
Qed.

Lemma reverse_string_reverses_witness :
  string_at (CharsAt 1) example_store = Some (list_byte_of_string "abc")
  ∧ ∃ l h',
      reverse_string (CharsAt 1) example_store = Some (CharsAt l, h')
      ∧ example_store !! l = None
      ∧ h' = <[l:=Chars (c_string "cba")]> example_store
      ∧ string_at (CharsAt l) h' = Some (list_byte_of_string "cba")
      ∧ length (list_byte_of_string "cba") = length (list_byte_of_string "abc")
      ∧ (list_byte_of_string "abc" = [] → h' !! l = Some (Chars [Some NUL])).
Proof.
  split; [vm_compute; reflexivity|].
  apply (reverse_string_reverses (CharsAt 1) example_store
           (list_byte_of_string "abc")).
  vm_compute; reflexivity.
Defined.

(** C6. For every NUL-terminated string [s], reversing the result of
    [reverse_string] gives a string equal to [s]. *)
Theorem reverse_string_involutive input h s :
  string_at input h = Some s →
  ∃ once h1 twice h2,
    reverse_string input h = Some (once, h1)
    ∧ reverse_string once h1 = Some (twice, h2)
    ∧ string_at twice h2 = Some s.
Proof.
  intros Hs. pose proof (reverse_string_eq input h s Hs) as Heq1.
  apply string_at_inv in Hs as (rest & _ & Hnul).
  assert (NUL ∉ reverse s) as Hnul' by (by rewrite elem_of_reverse).
  pose proof (string_at_chars (fresh (dom h)) (reverse s) h Hnul') as Hs1.
  pose proof (reverse_string_eq _ _ _ Hs1) as Heq2.
  rewrite reverse_involutive in Heq2.
  eexists _, _, _, _. split; [exact Heq1|]. split; [exact Heq2|].
  by apply string_at_chars.
Qed.

Lemma reverse_string_involutive_witness :
  string_at (CharsAt 1) example_store = Some (list_byte_of_string "abc")
  ∧ ∃ once h1 twice h2,
      reverse_string (CharsAt 1) example_store = Some (once, h1)
      ∧ reverse_string once h1 = Some (twice, h2)
      ∧ string_at twice h2 = Some (list_byte_of_string "abc").
Proof.
  split; [vm_compute; reflexivity|].
  apply (reverse_string_involutive (CharsAt 1) example_store
           (list_byte_of_string "abc")).
  vm_compute; reflexivity.
Defined.
End FfiCProofs.

(** ** [ffi.cc] *)

Module FfiCxxProofs.
Import FfiCxx.
Implicit Types (h : gmap loc block) (obj : loc) (o : ComplexObject).

Lemma literal_or_chars_of_store p h cells h' :
  chars_of p h = Some (cells, h') → h' = h.
Proof.
  destruct p as [|l]; unfold chars_of; unfold_M; [congruence|].
  destruct (h !! l) as [[| |]|]; simpl; congruence.
Qed.

(** *** The opaque value holder *)

Lemma set_complex_value_eq obj o v h :
  h !! obj = Some (Object o) →
  set_complex_value obj v h = Some (tt, <[obj:=Object (mkComplexObject v)]> h).
Proof.
  intros Hobj. unfold set_complex_value, as_ComplexObject. unfold_M.
  by rewrite !Hobj.
Qed.

Lemma get_complex_value_eq obj o h :
  h !! obj = Some (Object o) →
  get_complex_value obj h = Some (value_ o, h).
Proof.
  intros Hobj. unfold get_complex_value, as_ComplexObject. unfold_M.
  by rewrite Hobj.
Qed.

(** A run of [set_complex_value] calls leaves the last value set, or
    the value held before when the run is empty. *)
Lemma set_complex_values_eq obj vs : ∀ o h,
  h !! obj = Some (Object o) →
  set_complex_values obj vs h
  = Some (tt, <[obj:=Object (mkComplexObject (default (value_ o) (last vs)))]> h).
Proof.
  induction vs as [|v vs IH]; intros o h Hobj.
  - cbn [set_complex_values last default]. unfold_M.
    destruct o. by rewrite insert_id.
  - cbn [set_complex_values].
    rewrite (bind_eq _ _ _ _ _ (set_complex_value_eq _ _ v _ Hobj)).
    rewrite (IH (mkComplexObject v)) by apply lookup_insert_eq.
    rewrite insert_insert_eq, last_cons. cbn [value_].
    by destruct (last vs).
Qed.

(** *** [process_string] *)

Lemma process_string_eq input h s :
  string_at input h = Some s → process_string input h = Some (tt, h).
Proof.
  unfold string_at.
  destruct (chars_of input h) as [[cells h']|] eqn:Hin; [|done].
  pose proof (literal_or_chars_of_store _ _ _ _ Hin) as ->. intros Hs.
  unfold process_string, string_ctor, string_dtor. unfold_M.
  rewrite Hin, Hs, alloc_eq.
  apply dealloc_insert, fresh_unused.
Qed.

(** *** Sanity checks on concrete inputs *)

Example set_get_example :
  (obj ← create_complex_object;
   set_complex_value obj 3;; set_complex_value obj (-8);;
   get_complex_value obj) ∅
  = Some (-8, {[ 1%positive := Object (mkComplexObject (-8)) ]}).
Proof. vm_compute. reflexivity. Qed.

(** A handle that is not a live value holder is refused. *)
Example get_dangling : get_complex_value 1 ∅ = None.
Proof. vm_compute. reflexivity. Qed.

(** *** The claims about [ffi.cc] *)

(** C7. For every pair of doubles, [create_point] returns a new record
    whose [x] and [y] read back as exactly the bit patterns passed. *)
Theorem create_point_fields (a b : double) h :
  ∃ point p,
    create_point a b h = Some (point, <[point:=Point p]> h)
    ∧ h !! point = None
    ∧ <[point:=Point p]> h !! point = Some (Point p)
    ∧ x p = a
    ∧ y p = b.
Proof.
  exists (fresh (dom h)), (mkFFIPoint a b).
  split; [done|]. split; [apply fresh_unused|].
  split; [apply lookup_insert_eq|done].
Qed.

(** C8. On a live value holder, [set_complex_value] with [v] followed
    by [get_complex_value] returns [v]; after any run of
    [set_complex_value] calls, [get_complex_value] returns the value
    of the last one; [get_complex_value] returns the store it was
    given.  Every handle [create_complex_object] returns is such a
    live value holder. *)
Theorem complex_value_last_set obj o h vs v :
  h !! obj = Some (Object o) →
  (∃ h1,
     set_complex_value obj v h = Some (tt, h1)
     ∧ get_complex_value obj h1 = Some (v, h1))
  ∧ (∃ h2,
       set_complex_values obj (vs ++ [v]) h = Some (tt, h2)
       ∧ get_complex_value obj h2 = Some (v, h2))
  ∧ get_complex_value obj h = Some (value_ o, h)
  ∧ (∀ h0, ∃ obj0 h0',
       create_complex_object h0 = Some (obj0, h0')
       ∧ h0 !! obj0 = None
       ∧ h0' !! obj0 = Some (Object (mkComplexObject 0))).
Proof.
  intros Hobj. repeat split.
  - eexists. split; [by eapply set_complex_value_eq|].
    by rewrite (get_complex_value_eq _ (mkComplexObject v))
      by apply lookup_insert_eq.
  - eexists. split; [by eapply set_complex_values_eq|].
    rewrite last_snoc. cbn [default].
    by rewrite (get_complex_value_eq _ (mkComplexObject v))
      by apply lookup_insert_eq.
  - by apply get_complex_value_eq.
  - intros h0. eexists _, _. split; [done|].
    split; [apply fresh_unused|apply lookup_insert_eq].
Qed.

Lemma complex_value_last_set_witness :
  ({[ 1%positive := Object (mkComplexObject 5) ]} : gmap loc block) !! 1%positive
  = Some (Object (mkComplexObject 5))
  ∧ ∃ h2,
      set_complex_values 1 ([3; 4] ++ [-8])
        {[ 1%positive := Object (mkComplexObject 5) ]} = Some (tt, h2)
      ∧ get_complex_value 1 h2 = Some (-8, h2).
Proof.
  split; [vm_compute; reflexivity|].
  apply (complex_value_last_set 1 (mkComplexObject 5)
           {[ 1%positive := Object (mkComplexObject 5) ]} [3; 4] (-8)).
  vm_compute; reflexivity.
Defined.

(** C9. A value holder freshly returned by [create_complex_object]
    reads as [0] before any [set_complex_value] call. *)
Theorem complex_value_initially_zero h :
  ∃ obj h',
    create_complex_object h = Some (obj, h')
    ∧ h !! obj = None
    ∧ get_complex_value obj h' = Some (0, h').
Proof.
  eexists _, _. split; [done|]. split; [apply fresh_unused|].
  by rewrite (get_complex_value_eq _ (mkComplexObject 0))
    by apply lookup_insert_eq.
Qed.

(** C10. Every call of [get_string] returns a pointer to the same
    constant string, ["Hello from C++"], which lies outside the store
    of allocated objects and reads the same in every store, and
    leaves the store as it was; and a call of [process_string] on a
    NUL-terminated string returns with the store as it was. *)
Theorem get_string_constant_process_string_pure input h s :
  string_at input h = Some s →
  (∀ h0, get_string h0 = Some (HelloLiteral, h0))
  ∧ (∀ h0, string_at HelloLiteral h0
           = Some (list_byte_of_string "Hello from C++"))
  ∧ (∀ l, HelloLiteral ≠ CharsAt l)
  ∧ process_string input h = Some (tt, h).
Proof.
  intros Hs. repeat split; try done.
  by eapply process_string_eq.
Qed.

Lemma get_string_constant_process_string_pure_witness :
  string_at HelloLiteral ∅ = Some (list_byte_of_string "Hello from C++")
  ∧ process_string HelloLiteral ∅ = Some (tt, ∅).
Proof.
  split; [vm_compute; reflexivity|].
  apply (get_string_constant_process_string_pure HelloLiteral ∅
           (list_byte_of_string "Hello from C++")).
  vm_compute; reflexivity.
Defined.
End FfiCxxProofs.

(** ** The callback bridge of both files *)

(** C1, as the claim states it, fails: the entry point of [ffi.cc] does
    not pass [200]; the test callback records one call with [42]. *)
Lemma register_callback_cxx_not_200 :
  ¬ (invokes_once_with 200 (@FfiC.register_callback)
     ∧ invokes_once_with 200 (@FfiCxx.register_callback)).
Proof.
  intros [_ Hcxx].
  specialize (Hcxx recorder recording_callback (0%nat, [])).
  vm_compute in Hcxx. discriminate Hcxx.
Qed.

(** C1, amended. For every callback, each [register_callback] invokes it
    exactly once, before returning, with a fixed status: [200] in
    [ffi.c] and [42] in [ffi.cc].  The test callback, started with no
    call recorded, ends with one call recorded and that status. *)
Theorem register_callback_invokes_once :
  invokes_once_with 200 (@FfiC.register_callback)
  ∧ invokes_once_with 42 (@FfiCxx.register_callback)
  ∧ FfiC.register_callback recording_callback (0%nat, []) = (1%nat, [200])
  ∧ FfiCxx.register_callback recording_callback (0%nat, []) = (1%nat, [42]).
Proof.
  split; [|split]; [intros W callback w; reflexivity..|].
  split; reflexivity.
Qed.

(** * Beyond the claims *)

(** ** The store monad, continued *)

Lemma bind_none {B A A'} (m : M B A) (f : A → M B A') (h : gmap loc B) :
  m h = None → (m ≫= f) h = None.
Proof. unfold mbind, M_bind. by intros ->. Qed.

Lemma dealloc_unused {B} (l : loc) (h : gmap loc B) :
  h !! l = None → dealloc l h = None.
Proof. unfold dealloc. by intros ->. Qed.

Lemma cell_at_prefix s rest i c :
  s !! i = Some c → cell_at ((Some <$> s) ++ rest) i = Some c.
Proof.
  intros Hi. unfold cell_at.
  rewrite lookup_app_l by (rewrite length_fmap; by eapply lookup_lt_Some).
  by rewrite list_lookup_fmap, Hi.
Qed.

Lemma sum_Z_perm xs ys : xs ≡ₚ ys → sum_Z xs = sum_Z ys.
Proof.
  unfold sum_Z. induction 1; simpl; lia.
Qed.

(** ** [ffi.c], continued *)

Module FfiCMore.
Import FfiC FfiCProofs.
Implicit Types (h : gmap loc block) (l : loc) (p : char_ptr).

(** An allocation elsewhere does not change the string a pointer
    reads. *)
Lemma string_at_frame p h l b s :
  h !! l = None →
  string_at p h = Some s →
  string_at p (<[l:=b]> h) = Some s.
Proof.
  intros Hl (rest & Hp & Hnul)%string_at_inv. unfold string_at.
  rewrite (chars_of_frame _ _ _ b _ Hl Hp). by apply cstring_intro.
Qed.

Lemma load_char_frame_none p h l b cells i :
  h !! l = None →
  chars_of p h = Some (cells, h) →
  cell_at cells i = None →
  load_char p i (<[l:=b]> h) = None.
Proof.
  intros Hl Hp Hc. unfold load_char.
  rewrite (bind_eq _ _ _ _ _ (chars_of_frame _ _ _ b _ Hl Hp)).
  unfold lift. by rewrite Hc.
Qed.

(** [strncpy] from a source whose next [n] bytes are there and are not
    NUL: it copies them and pads nothing. *)
Lemma strncpy_from_full src h l s rest n i d :
  h !! l = None →
  chars_of src h = Some ((Some <$> s) ++ rest, h) →
  NUL ∉ s →
  (i + n ≤ length s)%nat →
  (i + n ≤ length (name d))%nat →
  strncpy_from (NameOf l) src n i (<[l:=Data d]> h)
  = Some (tt, <[l:=Data (mkFFIData (id d)
                           (take i (name d)
                            ++ (Some <$> take n (drop i s))
                            ++ drop (i + n) (name d))
                           (value d))]> h).
Proof.
  intros Hl Hsrc Hnul. revert i d.
  induction n as [|n IH]; intros i d Hi Hlen.
  - cbn [strncpy_from]. unfold_M.
    rewrite take_0, fmap_nil, Nat.add_0_r. cbn [app].
    rewrite take_drop. by destruct d.
  - cbn [strncpy_from].
    destruct (lookup_lt_is_Some_2 s i) as [c Hc]; [lia|].
    assert (c ≠ NUL) as Hne.
    { intros ->. apply Hnul. by eapply list_elem_of_lookup_2. }
    erewrite bind_eq
      by (eapply load_char_frame; [done..|]; by apply cell_at_prefix).
    erewrite bind_eq by (apply store_char_name; lia).
    rewrite decide_False by done.
    rewrite IH by (cbn [name]; rewrite ?length_insert; lia).
    cbn [id name value].
    rewrite (drop_S _ _ _ Hc), firstn_cons, fmap_cons.
    rewrite take_S_insert, drop_S_insert by lia.
    by rewrite <- app_assoc.
Qed.

(** [strncpy] from a source that ends, or turns uninitialised, after
    the bytes of [s] without a NUL, asked for more bytes than [s] has:
    the read past [s] is undefined. *)
Lemma strncpy_from_overrun src h l s tail n i d :
  h !! l = None →
  chars_of src h = Some ((Some <$> s) ++ tail, h) →
  NUL ∉ s →
  cell_at ((Some <$> s) ++ tail) (length s) = None →
  (i ≤ length s)%nat →
  (length s < i + n)%nat →
  (i + n ≤ length (name d))%nat →
  strncpy_from (NameOf l) src n i (<[l:=Data d]> h) = None.
Proof.
  intros Hl Hsrc Hnul Hend. revert i d.
  induction n as [|n IH]; intros i d Hi Hover Hlen; [lia|].
  cbn [strncpy_from].
  destruct (decide (i < length s)%nat) as [Hlt|Hge].
  - destruct (lookup_lt_is_Some_2 s i Hlt) as [c Hc].
    assert (c ≠ NUL) as Hne.
    { intros ->. apply Hnul. by eapply list_elem_of_lookup_2. }
    erewrite bind_eq
      by (eapply load_char_frame; [done..|]; by apply cell_at_prefix).
    erewrite bind_eq by (apply store_char_name; lia).
    rewrite decide_False by done.
    apply IH; cbn [name]; rewrite ?length_insert; lia.
  - assert (i = length s) as -> by lia.
    apply bind_none. by eapply load_char_frame_none.
Qed.

(** The sum loop run past the end of the array. *)
Lemma sum_loop_overrun array h xs k i acc :
  h !! array = Some (Ints xs) →
  (i ≤ length xs)%nat →
  (length xs < i + k)%nat →
  for_loop k i (λ i sum, x ← load_int array i; mret (Int32.add sum x)) acc h
  = None.
Proof.
  intros Harr. revert i acc. induction k as [|k IH]; intros i acc Hi Hover; [lia|].
  cbn [for_loop].
  destruct (decide (i < length xs)%nat) as [Hlt|Hge].
  - destruct (lookup_lt_is_Some_2 xs i Hlt) as [x Hx].
    erewrite bind_eq by (erewrite bind_eq by (by eapply load_int_eq); done).
    apply IH; lia.
  - apply bind_none, bind_none. unfold load_int. unfold_M.
    rewrite Harr. by rewrite lookup_ge_None_2 by lia.
Qed.

(** *** Records: allocation and release *)

(** X1. A record made by [create_data] and released by [free_data]
    leaves the store exactly as it was before the two calls. *)
Theorem create_data_free_data identifier nm v h s :
  string_at nm h = Some s →
  (data ← create_data identifier nm v; free_data (Some data)) h = Some (tt, h).
Proof.
  intros Hs. rewrite (bind_eq _ _ _ _ _ (create_data_eq identifier nm v h s Hs)).
  apply dealloc_insert, fresh_unused.
Qed.

Lemma create_data_free_data_witness :
  string_at (CharsAt 1) example_store = Some (list_byte_of_string "abc")
  ∧ (data ← create_data 7 (CharsAt 1) 99; free_data (Some data)) example_store
    = Some (tt, example_store).
Proof.
  split; [vm_compute; reflexivity|].
  apply (create_data_free_data 7 (CharsAt 1) 99 example_store
           (list_byte_of_string "abc")).
  vm_compute; reflexivity.
Defined.

(** X2. Once a record is released, releasing it again is undefined, and
    so is reading its name. *)
Theorem free_data_then_use identifier nm v h s :
  string_at nm h = Some s →
  (data ← create_data identifier nm v;
   free_data (Some data);; free_data (Some data)) h = None
  ∧ (data ← create_data identifier nm v;
     free_data (Some data);; strlen (NameOf data)) h = None.
Proof.
  intros Hs. pose proof (fresh_unused h) as Hl.
  split; rewrite (bind_eq _ _ _ _ _ (create_data_eq identifier nm v h s Hs));
    (erewrite bind_eq by (apply dealloc_insert, fresh_unused)).
  - by apply dealloc_unused.
  - unfold strlen, chars_of. unfold_M. by rewrite Hl.
Qed.

Lemma free_data_then_use_witness :
  string_at (CharsAt 1) example_store = Some (list_byte_of_string "abc")
  ∧ (data ← create_data 7 (CharsAt 1) 99;
     free_data (Some data);; free_data (Some data)) example_store = None.
Proof.
  split; [vm_compute; reflexivity|].
  apply (free_data_then_use 7 (CharsAt 1) 99 example_store
           (list_byte_of_string "abc")).
  vm_compute; reflexivity.
Defined.

(** X3. [create_data] reads at most 63 bytes of its input: when the
    first 63 bytes are there and none is NUL, it succeeds and stores
    them followed by a NUL, whatever follows them in the caller's array
    (a terminator, more bytes, uninitialised bytes, or nothing). *)
Theorem create_data_reads_63_bytes identifier nm v h s rest :
  chars_of nm h = Some ((Some <$> s) ++ rest, h) →
  NUL ∉ s →
  length s = 63%nat →
  ∃ data d,
    create_data identifier nm v h = Some (data, <[data:=Data d]> h)
    ∧ h !! data = None
    ∧ d = mkFFIData (Some identifier) ((Some <$> s) ++ [Some NUL]) (Some v).
Proof.
  intros Hnm Hnul Hlen. pose proof (fresh_unused h) as Hl.
  eexists _, _. split; [|split; [exact Hl|reflexivity]].
  unfold create_data, malloc_FFIData.
  rewrite (bind_eq _ _ _ _ _ (alloc_eq _ _)).
  erewrite bind_eq by apply store_id_insert.
  cbn [name value]. unfold strncpy.
  erewrite bind_eq; cycle 1.
  { apply (strncpy_from_full _ _ _ _ _ _ _ _ Hl Hnm Hnul); [lia|].
    cbn [name]. rewrite length_replicate. lia. }
  cbn [id name value].
  rewrite take_0, app_nil_l, drop_0.
  rewrite (take_ge s) by lia.
  change (drop (0 + 63) (replicate 64 None)) with [@None byte].
  erewrite bind_eq; cycle 1.
  { apply store_char_name. cbn [name].
    rewrite length_app, length_fmap, Hlen. cbn [length]. lia. }
  cbn [id name value].
  erewrite bind_eq by apply store_value_insert.
  cbn [id name]. unfold mret, M_ret.
  rewrite insert_app_r_alt by (rewrite length_fmap; lia).
  by rewrite length_fmap, Hlen.
Qed.

Lemma create_data_reads_63_bytes_witness :
  ∃ data d,
    create_data 7 (CharsAt 1) 99 unterminated_store
    = Some (data, <[data:=Data d]> unterminated_store)
    ∧ unterminated_store !! data = None
    ∧ d = mkFFIData (Some 7)
            ((Some <$> list_byte_of_string
                "0123456789abcdefghijklmnopqrstuvwxyzABCDEFGHIJKLMNOPQRSTUVWXYZ!")
             ++ [Some NUL]) (Some 99).
Proof.
  apply (create_data_reads_63_bytes 7 (CharsAt 1) 99 unterminated_store
           (list_byte_of_string
              "0123456789abcdefghijklmnopqrstuvwxyzABCDEFGHIJKLMNOPQRSTUVWXYZ!")
           []).
  - vm_compute; reflexivity.
  - apply (bool_decide_unpack _). vm_compute. exact I.
  - vm_compute; reflexivity.
Defined.

(** X4. On an input of fewer than 63 bytes that ends, or turns
    uninitialised, before any NUL, [create_data] is undefined: [strncpy]
    reads past the bytes that are there. *)
Theorem create_data_unterminated_short identifier nm v h s tail :
  chars_of nm h = Some ((Some <$> s) ++ tail, h) →
  NUL ∉ s →
  cell_at ((Some <$> s) ++ tail) (length s) = None →
  (length s < 63)%nat →
  create_data identifier nm v h = None.
Proof.
  intros Hnm Hnul Hend Hshort. pose proof (fresh_unused h) as Hl.
  unfold create_data, malloc_FFIData.
  rewrite (bind_eq _ _ _ _ _ (alloc_eq _ _)).
  erewrite bind_eq by apply store_id_insert.
  apply bind_none. unfold strncpy.
  apply (strncpy_from_overrun _ _ _ _ _ _ _ _ Hl Hnm Hnul Hend); [lia..|].
  cbn [name]. rewrite length_replicate. lia.
Qed.

Lemma create_data_unterminated_short_witness :
  create_data 7 (CharsAt 2) 99 unterminated_store = None.
Proof.
  apply (create_data_unterminated_short 7 (CharsAt 2) 99 unterminated_store
           (list_byte_of_string "abc") []).
  - vm_compute; reflexivity.
  - apply (bool_decide_unpack _). vm_compute. exact I.
  - vm_compute; reflexivity.
  - vm_compute; lia.
Defined.

(** X5. Two records made one after the other are distinct objects, and
    making the second leaves the first as it was: each name reads back
    as the first 63 bytes of its own input. *)
Theorem create_data_twice_distinct id1 nm1 v1 id2 nm2 v2 h s1 s2 :
  string_at nm1 h = Some s1 →
  string_at nm2 h = Some s2 →
  ∃ data1 h1 data2 h2,
    create_data id1 nm1 v1 h = Some (data1, h1)
    ∧ create_data id2 nm2 v2 h1 = Some (data2, h2)
    ∧ data1 ≠ data2
    ∧ h2 !! data1 = h1 !! data1
    ∧ string_at (NameOf data1) h2 = Some (take 63 s1)
    ∧ string_at (NameOf data2) h2 = Some (take 63 s2).
Proof.
  intros Hs1 Hs2.
  pose proof (create_data_eq id1 nm1 v1 h s1 Hs1) as Heq1.
  pose proof (fresh_unused h) as Hl1.
  set (data1 := fresh (dom h)) in *.
  set (d1 := mkFFIData (Some id1)
               ((Some <$> take 63 s1)
                ++ replicate (64 - length (take 63 s1)) (Some NUL)) (Some v1)) in *.
  pose proof (string_at_frame _ _ _ (Data d1) _ Hl1 Hs2) as Hs2'.
  pose proof (create_data_eq id2 nm2 v2 _ s2 Hs2') as Heq2.
  pose proof (fresh_unused (<[data1:=Data d1]> h)) as Hl2.
  set (data2 := fresh (dom (<[data1:=Data d1]> h))) in *.
  assert (data1 ≠ data2) as Hne.
  { intros Heq. rewrite <- Heq, lookup_insert_eq in Hl2. done. }
  apply string_at_inv in Hs1 as (? & _ & Hnul1).
  apply string_at_inv in Hs2 as (? & _ & Hnul2).
  assert (∀ s : list byte,
            replicate (64 - length (take 63 s)) (Some NUL)
            = Some NUL :: replicate (63 - length (take 63 s)) (Some NUL))
    as Hpad.
  { intros s. rewrite length_take.
    by replace (64 - 63 `min` length s)%nat
         with (S (63 - 63 `min` length s)) by lia. }
  eexists _, _, _, _. split; [exact Heq1|]. split; [exact Heq2|].
  split; [done|]. split; [by rewrite lookup_insert_ne|]. split.
  - apply string_at_frame; [done|]. subst d1. rewrite Hpad.
    apply string_at_name. by apply not_elem_of_take.
  - rewrite Hpad. apply string_at_name. by apply not_elem_of_take.
Qed.

Lemma create_data_twice_distinct_witness :
  ∃ data1 h1 data2 h2,
    create_data 7 (CharsAt 1) 99 example_store = Some (data1, h1)
    ∧ create_data 8 (CharsAt 3) 100 h1 = Some (data2, h2)
    ∧ data1 ≠ data2
    ∧ h2 !! data1 = h1 !! data1
    ∧ string_at (NameOf data1) h2 = Some (take 63 (list_byte_of_string "abc"))
    ∧ string_at (NameOf data2) h2
      = Some (take 63 (list_byte_of_string long_name)).
Proof.
  apply (create_data_twice_distinct 7 (CharsAt 1) 99 8 (CharsAt 3) 100
           example_store (list_byte_of_string "abc")
           (list_byte_of_string long_name)).
  - vm_compute; reflexivity.
  - vm_compute; reflexivity.
Defined.

(** *** [sum_array] past the end, and in any order *)

(** X6. Asked for more elements than the buffer holds, [sum_array] is
    undefined: it reads past the end of the buffer. *)
Theorem sum_array_out_of_bounds array n h xs :
  h !! array = Some (Ints xs) →
  (length xs < n)%nat →
  sum_array array n h = None.
Proof.
  intros Harr Hn. unfold sum_array.
  apply (sum_loop_overrun _ _ _ _ _ _ Harr); lia.
Qed.

Lemma sum_array_out_of_bounds_witness :
  sum_array 2 4 example_store = None.
Proof.
  apply (sum_array_out_of_bounds 2 4 example_store [1; 2; 3]).
  - vm_compute; reflexivity.
  - simpl; lia.
Defined.

(** X7. The result of [sum_array] does not depend on the order of the
    elements: two buffers holding the same elements in different orders
    have the same sum, also when the running sum wraps on the way. *)
Theorem sum_array_order_independent array1 array2 h1 h2 xs ys :
  h1 !! array1 = Some (Ints xs) →
  h2 !! array2 = Some (Ints ys) →
  xs ≡ₚ ys →
  ∃ r,
    sum_array array1 (length xs) h1 = Some (r, h1)
    ∧ sum_array array2 (length ys) h2 = Some (r, h2).
Proof.
  intros Hxs Hys Hperm. eexists. split.
  - by apply sum_array_eq.
  - rewrite (sum_array_eq _ _ _ _ Hys) by done.
    by rewrite !firstn_all, (sum_Z_perm _ _ Hperm).
Qed.

Lemma sum_array_order_independent_witness :
  ∃ r,
    sum_array 5 2 example_store = Some (r, example_store)
    ∧ sum_array 5 2 (<[5%positive:=Ints [1; 2147483647]]> example_store)
      = Some (r, <[5%positive:=Ints [1; 2147483647]]> example_store).
Proof.
  apply (sum_array_order_independent 5 5 example_store
           (<[5%positive:=Ints [1; 2147483647]]> example_store)
           [2147483647; 1] [1; 2147483647]).
  - vm_compute; reflexivity.
  - vm_compute; reflexivity.
  - apply (bool_decide_unpack _). vm_compute. exact I.
Defined.

(** *** [reverse_string]: where it is defined, and on a record's name *)

(** X8. [reverse_string] is defined exactly on the pointers that read
    as a NUL-terminated string: on anything else (a dangling pointer, an
    array with no terminator or with an uninitialised byte before it)
    it is undefined. *)
Theorem reverse_string_defined_iff input h :
  is_Some (reverse_string input h) ↔ is_Some (string_at input h).
Proof.
  split.
  - intros [r Hr]. destruct (string_at input h) as [s|] eqn:Hs; [done|].
    exfalso. revert Hr. unfold reverse_string.
    rewrite bind_none; [done|].
    revert Hs. unfold string_at, strlen.
    destruct (chars_of input h) as [[cells h']|] eqn:Hin.
    + intros Hs. rewrite (bind_eq _ _ _ _ _ Hin).
      unfold lift. by rewrite strlen_cstring, Hs.
    + intros _. by apply bind_none.
  - intros [s Hs]. by rewrite (reverse_string_eq _ _ _ Hs).
Qed.



(** X18. The buffer [reverse_string] returns comes from [malloc], so
    [free_data], which is [free], releases it: after the two calls the
    store is exactly as it was. *)
Theorem reverse_string_free_data input h s :
  string_at input h = Some s →
  ∃ result h',
    reverse_string input h = Some (CharsAt result, h')
    ∧ free_data (Some result) h' = Some (tt, h).
Proof.
  intros Hs. eexists _, _. split; [by apply reverse_string_eq|].
  apply dealloc_insert, fresh_unused.
Qed.

Lemma reverse_string_free_data_witness :
  ∃ result h',
    reverse_string (CharsAt 1) example_store = Some (CharsAt result, h')
    ∧ free_data (Some result) h' = Some (tt, example_store).
Proof.
  apply (reverse_string_free_data (CharsAt 1) example_store
           (list_byte_of_string "abc")).
  vm_compute; reflexivity.
Defined.
End FfiCMore.

(** ** [ffi.cc], continued *)

Module FfiCxxMore.
Import FfiCxx FfiCxxProofs.
Implicit Types (h : gmap loc block) (obj : loc) (o : ComplexObject).

Lemma delete_complex_object_insert obj o h :
  h !! obj = None →
  delete_complex_object (Some obj) (<[obj:=Object o]> h) = Some (tt, h).
Proof.
  intros Hobj. unfold delete_complex_object. unfold_M.
  rewrite lookup_insert_eq. by apply dealloc_insert.
Qed.

Lemma delete_point_insert l p h :
  h !! l = None →
  delete_point (Some l) (<[l:=Point p]> h) = Some (tt, h).
Proof.
  intros Hl. unfold delete_point. unfold_M.
  rewrite lookup_insert_eq. by apply dealloc_insert.
Qed.

(** Nothing can be done through a location that holds no object. *)
Lemma complex_object_gone obj v h :
  h !! obj = None →
  get_complex_value obj h = None
  ∧ set_complex_value obj v h = None
  ∧ delete_complex_object (Some obj) h = None.
Proof.
  intros Hobj.
  unfold get_complex_value, set_complex_value, delete_complex_object,
    as_ComplexObject.
  unfold_M. by rewrite !Hobj.
Qed.

(** *** The life of a value holder *)

(** X10. A value holder that is created, set any number of times and
    then deleted leaves the store exactly as it was before it was
    created. *)
Theorem complex_object_lifecycle h vs :
  (obj ← create_complex_object;
   set_complex_values obj vs;;
   delete_complex_object (Some obj)) h
  = Some (tt, h).
Proof.
  pose proof (fresh_unused h) as Hl.
  unfold create_complex_object. rewrite (bind_eq _ _ _ _ _ (alloc_eq _ _)).
  erewrite bind_eq
    by (apply set_complex_values_eq, lookup_insert_eq).
  rewrite insert_insert_eq. by apply delete_complex_object_insert.
Qed.

(** X11. After [delete_complex_object], every use of the handle is
    undefined: reading it, writing it, and deleting it a second time. *)
Theorem complex_object_use_after_delete h v :
  (obj ← create_complex_object;
   delete_complex_object (Some obj);; get_complex_value obj) h = None
  ∧ (obj ← create_complex_object;
     delete_complex_object (Some obj);; set_complex_value obj v) h = None
  ∧ (obj ← create_complex_object;
     delete_complex_object (Some obj);;
     delete_complex_object (Some obj)) h = None.
Proof.
  pose proof (fresh_unused h) as Hl.
  destruct (complex_object_gone _ v _ Hl) as (Hget & Hset & Hdel).
  unfold create_complex_object.
  repeat split; rewrite (bind_eq _ _ _ _ _ (alloc_eq _ _));
    (erewrite bind_eq by (by apply delete_complex_object_insert)); done.
Qed.

(** X12. The create and release pairs cannot be mixed: a point is not
    a value holder, so reading, writing or deleting it through the
    value-holder entry points is undefined, and so is deleting a value
    holder through [delete_point]. *)
Theorem release_pairs_not_interchangeable a b v h :
  (point ← create_point a b; get_complex_value point) h = None
  ∧ (point ← create_point a b; set_complex_value point v) h = None
  ∧ (point ← create_point a b; delete_complex_object (Some point)) h = None
  ∧ (obj ← create_complex_object; delete_point (Some obj)) h = None.
Proof.
  unfold create_point, create_complex_object, get_complex_value,
    set_complex_value, delete_complex_object, delete_point, as_ComplexObject.
  repeat split; unfold_M; rewrite alloc_eq; by rewrite ?lookup_insert_eq.
Qed.

(** X13. Value holders are independent: writing one live handle leaves
    the value read through any other live handle as it was. *)
Theorem complex_values_independent obj1 obj2 o1 o2 v h :
  obj1 ≠ obj2 →
  h !! obj1 = Some (Object o1) →
  h !! obj2 = Some (Object o2) →
  ∃ h',
    set_complex_value obj1 v h = Some (tt, h')
    ∧ get_complex_value obj1 h' = Some (v, h')
    ∧ get_complex_value obj2 h' = Some (value_ o2, h').
Proof.
  intros Hne H1 H2. eexists. split; [by eapply set_complex_value_eq|]. split.
  - by rewrite (get_complex_value_eq _ (mkComplexObject v))
      by apply lookup_insert_eq.
  - apply get_complex_value_eq. by rewrite lookup_insert_ne.
Qed.

Lemma complex_values_independent_witness :
  ∃ h',
    set_complex_value 1 7
      {[ 1%positive := Object (mkComplexObject 5);
         2%positive := Object (mkComplexObject 6) ]} = Some (tt, h')
    ∧ get_complex_value 1 h' = Some (7, h')
    ∧ get_complex_value 2 h' = Some (6, h').
Proof.
  apply (complex_values_independent 1 2 (mkComplexObject 5) (mkComplexObject 6) 7
           {[ 1%positive := Object (mkComplexObject 5);
              2%positive := Object (mkComplexObject 6) ]}).
  - apply (bool_decide_unpack _). vm_compute. exact I.
  - vm_compute; reflexivity.
  - vm_compute; reflexivity.
Defined.

(** X14. Two value holders created one after the other have different
    handles, and after any run of writes to the first the second still
    reads as [0]. *)
Theorem create_complex_object_distinct h vs :
  ∃ obj1 h1 obj2 h2 h3,
    create_complex_object h = Some (obj1, h1)
    ∧ create_complex_object h1 = Some (obj2, h2)
    ∧ obj1 ≠ obj2
    ∧ set_complex_values obj1 vs h2 = Some (tt, h3)
    ∧ get_complex_value obj2 h3 = Some (0, h3).
Proof.
  pose proof (fresh_unused (<[fresh (dom h):=Object ComplexObjectImpl.ctor]> h))
    as Hl2.
  set (obj1 := fresh (dom h)) in *.
  set (h1 := <[obj1:=Object ComplexObjectImpl.ctor]> h) in *.
  set (obj2 := fresh (dom h1)) in *.
  assert (obj1 ≠ obj2) as Hne.
  { intros Heq. rewrite <- Heq in Hl2. subst h1.
    by rewrite lookup_insert_eq in Hl2. }
  assert (<[obj2:=Object ComplexObjectImpl.ctor]> h1 !! obj1
          = Some (Object ComplexObjectImpl.ctor)) as Hobj1.
  { rewrite lookup_insert_ne by done. subst h1. apply lookup_insert_eq. }
  eexists obj1, h1, obj2, _, _.
  split; [done|]. split; [done|]. split; [done|].
  split; [by eapply set_complex_values_eq|].
  rewrite (get_complex_value_eq _ ComplexObjectImpl.ctor); [done|].
  rewrite lookup_insert_ne by done. apply lookup_insert_eq.
Qed.

(** *** Points and arrays *)

(** X15. A point that is created and then deleted leaves the store
    exactly as it was; deleting it a second time is undefined. *)
Theorem point_lifecycle a b h :
  (point ← create_point a b; delete_point (Some point)) h = Some (tt, h)
  ∧ (point ← create_point a b;
     delete_point (Some point);; delete_point (Some point)) h = None.
Proof.
  pose proof (fresh_unused h) as Hl.
  unfold create_point. split.
  - rewrite (bind_eq _ _ _ _ _ (bind_eq _ _ _ _ _ (alloc_eq _ _))).
    by apply delete_point_insert.
  - rewrite (bind_eq _ _ _ _ _ (bind_eq _ _ _ _ _ (alloc_eq _ _))).
    erewrite bind_eq by (by apply delete_point_insert).
    unfold delete_point. unfold_M. by rewrite Hl.
Qed.


(** *** [process_string] *)

(** X17. [process_string] is defined exactly on the pointers that read
    as a NUL-terminated string; on anything else, building the local
    string is undefined. *)
Theorem process_string_defined_iff input h :
  is_Some (process_string input h) ↔ is_Some (string_at input h).
Proof.
  split.
  - intros [r Hr]. destruct (string_at input h) as [s|] eqn:Hs; [done|].
    exfalso. revert Hr Hs. unfold process_string, string_ctor, string_at.
    unfold_M. destruct (chars_of input h) as [[cells h']|]; [|done].
    intros Hr Hs. by rewrite Hs in Hr.
  - intros [s Hs]. by rewrite (process_string_eq _ _ _ Hs).
Qed.
End FfiCxxMore.
